(** * CppCmb: the reader, the result model and the combinator protocol

    A shallow embedding of [cppcmb.hpp] (generic parser combinators for
    C++17) and the properties of its reader, of [success] / [failure] /
    [result], of the combinator identity counter and of the [action]
    combinator.

    Conventions of the embedding:
    - [std::size_t] is an [N] together with the platform's width; the two
      places where the header does arithmetic on it ([cursor() + 1] and
      [s_ID_Counter++]) wrap around modulo [2 ^ size_t_bits];
    - [cppcmb_assert] expands to [assert]; a failed assertion is the
      outcome [AssertFail] carrying the message of the assertion (the
      header is read with assertions enabled);
    - a member function that mutates its object is a function from the
      object to the updated object;
    - the process-wide [s_ID_Counter] is threaded explicitly through every
      construction of a combinator. *)

From Stdlib Require Import NArith List String Ascii Bool Lia.
Import ListNotations.
Local Open Scope string_scope.
Local Open Scope N_scope.

Set Implicit Arguments.

(* ------------------------------------------------------------------ *)
(** * std::size_t *)

(** The width of [std::size_t] is fixed by the platform, not by the
    header. *)
Class Platform : Type := { size_t_bits : N }.

(** The usual 64-bit data model, used for the concrete runs. *)
Definition LP64 : Platform := {| size_t_bits := 64 |}.

Module size_t.

Definition t : Type := N.

Section Width.
Context {P : Platform}.

Definition modulus : N := 2 ^ size_t_bits.

(** [SIZE_MAX] *)
Definition max : t := modulus - 1.

Definition in_range (n : N) : Prop := n < modulus.

Definition wrap (n : N) : t := n mod modulus.

(** Unsigned addition on [std::size_t]. *)
Definition add (a b : t) : t := wrap (a + b).

End Width.

End size_t.

(* ------------------------------------------------------------------ *)
(** * Assertions *)

(** The outcome of a member function that may trip [cppcmb_assert]. *)
Inductive checked (A : Type) : Type :=
| Done (a : A)
| AssertFail (msg : string).

Arguments Done {A} a.
Arguments AssertFail {A} msg.

Definition checked_bind {A B : Type} (c : checked A) (k : A -> checked B)
  : checked B :=
  match c with
  | Done a => k a
  | AssertFail msg => AssertFail msg
  end.

Notation "c1 ;;; c2" := (checked_bind c1 (fun _ => c2))
  (at level 61, right associativity).

(** [#define cppcmb_assert(msg, ...) assert(((void)msg, (__VA_ARGS__)))] *)
Definition cppcmb_assert (msg : string) (cond : bool) : checked unit :=
  if cond then Done tt else AssertFail msg.

(* ------------------------------------------------------------------ *)
(** * The reader *)

(** [detail::is_reader_source_v]: a source has a subscript operator taking
    a [std::size_t] and answers [std::size].  Subscripting is [None] where
    the C++ container gives no element. *)
Class ReaderSource (Src : Type) : Type := {
  element : Type;
  subscript : Src -> size_t.t -> option element;
  std_size : Src -> size_t.t
}.

#[export] Instance string_source : ReaderSource string := {
  element := ascii;
  subscript s i := String.get (N.to_nat i) s;
  std_size s := N.of_nat (String.length s)
}.

#[export] Instance list_source (A : Type) : ReaderSource (list A) := {
  element := A;
  subscript l i := nth_error l (N.to_nat i);
  std_size l := N.of_nat (List.length l)
}.

Module reader.

(** [Src const* m_Source; std::size_t m_Cursor;] The reader never writes
    through [m_Source], so the pointer is modelled by the source it points
    to. *)
Record t (Src : Type) : Type := mk {
  m_Source : Src;
  m_Cursor : size_t.t
}.

Definition seek_msg : string :=
  "seek() argument must be in the bounds of source!".

Definition next_msg : string :=
  "next() must not be called when is_end() is true!".

Section Members.
Context {P : Platform} {Src : Type} {RS : ReaderSource Src}.

(** [reader(Src const& src) : m_Source(std::addressof(src)), m_Cursor(0U)] *)
Definition ctor (src : Src) : t Src :=
  {| m_Source := src; m_Cursor := 0 |}.

Definition source (r : t Src) : Src := m_Source r.

Definition cursor (r : t Src) : size_t.t := m_Cursor r.

(** [cursor() == std::size(source())] *)
Definition is_end (r : t Src) : bool :=
  cursor r =? std_size (source r).

(** [source()[cursor()]] *)
Definition current (r : t Src) : option element :=
  subscript (source r) (cursor r).

(** [[
    cppcmb_assert("seek() argument ...", idx < std::size(source()));
    m_Cursor = idx;
    ]] *)
Definition seek (idx : size_t.t) (r : t Src) : checked (t Src) :=
  cppcmb_assert seek_msg (idx <? std_size (source r)) ;;;
  Done {| m_Source := m_Source r; m_Cursor := idx |}.

(** [[
    cppcmb_assert("next() must not ...", !is_end());
    seek(cursor() + 1);
    ]] *)
Definition next (r : t Src) : checked (t Src) :=
  cppcmb_assert next_msg (negb (is_end r)) ;;;
  seek (size_t.add (cursor r) 1) r.

(** A call of one of the two mutating members. *)
Inductive call : Type :=
| Seek (idx : size_t.t)
| Next.

Definition perform (c : call) (r : t Src) : checked (t Src) :=
  match c with
  | Seek idx => seek idx r
  | Next => next r
  end.

(** A sequence of calls on one reader object, stopping at the first failed
    assertion. *)
Fixpoint run (cs : list call) (r : t Src) : checked (t Src) :=
  match cs with
  | [] => Done r
  | c :: cs' => checked_bind (perform c r) (run cs')
  end.

End Members.

End reader.

(* ------------------------------------------------------------------ *)
(** * The result model *)

Module success.

(** [value_type m_Value; std::size_t m_Remaining;] *)
Record t (T : Type) : Type := mk {
  m_Value : T;
  m_Remaining : size_t.t
}.

Section Members.
Context {T : Type}.

(** [success(TFwd&& val, std::size_t rem)
      : m_Value(cppcmb_fwd(val)), m_Remaining(rem)] *)
Definition ctor (val : T) (rem : size_t.t) : t T :=
  {| m_Value := val; m_Remaining := rem |}.

(** The four overloads of [value()], one per form in which the object is
    held.  [value() &] and [value() const&] return [m_Value]; [value() &&]
    and [value() const&&] return [std::move(m_Value)], a reference to the
    same member: what is read is the stored value in each of them. *)
Definition value_lvalue (s : t T) : T := m_Value s.

Definition value_const_lvalue (s : t T) : T := m_Value s.

Definition value_rvalue (s : t T) : T := m_Value s.

Definition value_const_rvalue (s : t T) : T := m_Value s.

Definition remaining (s : t T) : size_t.t := m_Remaining s.

End Members.

End success.

Module failure.

(** [std::size_t m_Furthest;] *)
Record t : Type := mk {
  m_Furthest : size_t.t
}.

(** [failure(std::size_t furth) : m_Furthest(furth)] *)
Definition ctor (furth : size_t.t) : t :=
  {| m_Furthest := furth |}.

Definition furthest (f : t) : size_t.t := m_Furthest f.

End failure.

Module result.

(** [std::variant<success_type, failure_type> m_Data;] with alternative 0
    the success and alternative 1 the failure. *)
Record t (T : Type) : Type := mk {
  m_Data : success.t T + failure.t
}.

Section Members.
Context {T : Type}.

(** [result(TFwd&& val) : m_Data(cppcmb_fwd(val))], at a [success<T>]. *)
Definition of_success (s : success.t T) : t T :=
  {| m_Data := inl s |}.

(** [result(TFwd&& val) : m_Data(cppcmb_fwd(val))], at a [failure]. *)
Definition of_failure (f : failure.t) : t T :=
  {| m_Data := inr f |}.

(** [std::holds_alternative<success_type>(m_Data)] *)
Definition is_success (r : t T) : bool :=
  match m_Data r with
  | inl _ => true
  | inr _ => false
  end.

(** [std::holds_alternative<failure_type>(m_Data)] *)
Definition is_failure (r : t T) : bool :=
  match m_Data r with
  | inl _ => false
  | inr _ => true
  end.

(** [std::get<success_type>(m_Data)], in its four overloads; [None] where
    [std::get] throws [std::bad_variant_access]. *)
Definition success (r : t T) : option (success.t T) :=
  match m_Data r with
  | inl s => Some s
  | inr _ => None
  end.

(** [std::get<failure_type>(m_Data)], in its four overloads. *)
Definition failure (r : t T) : option failure.t :=
  match m_Data r with
  | inl _ => None
  | inr f => Some f
  end.

End Members.

End result.

(* ------------------------------------------------------------------ *)
(** * The combinator protocol *)

(** Code that reads and writes state of type [S], as a function from the
    state before to the value and the state after.  It is used for the
    process-wide identity counter and for the side effects of a transform
    function. *)
Definition stateful (S A : Type) : Type := S -> A * S.

Definition ret {S A : Type} (a : A) : stateful S A :=
  fun s => (a, s).

Definition bind {S A B : Type} (c : stateful S A) (k : A -> stateful S B)
  : stateful S B :=
  fun s => let (a, s') := c s in k a s'.

Notation "x <- c1 ;; c2" := (bind c1 (fun x => c2))
  (at level 61, c1 at next level, right associativity).

Module detail.
Module combinator_base.

(** [std::size_t m_ID = s_ID_Counter++;] *)
Record t : Type := mk {
  m_ID : size_t.t
}.

(** [static inline std::size_t s_ID_Counter = 0;] *)
Definition s_ID_Counter_init : size_t.t := 0.

Section Members.
Context {P : Platform}.

(** [s_ID_Counter++]: the value before, and the counter one further,
    wrapping at [SIZE_MAX]. *)
Definition post_increment : stateful size_t.t size_t.t :=
  fun counter => (counter, size_t.add counter 1).

(** The implicit default constructor, which runs the default member
    initializer of [m_ID]. *)
Definition ctor : stateful size_t.t t :=
  id <- post_increment ;;
  ret {| m_ID := id |}.

(** The implicit copy and move constructors copy [m_ID] and leave the
    counter alone. *)
Definition copy_ctor (other : t) : stateful size_t.t t :=
  ret {| m_ID := m_ID other |}.

Definition parser_id (c : t) : size_t.t := m_ID c.

(** The counter after [n] further default constructions. *)
Definition construct_many (n : N) (counter : size_t.t) : size_t.t :=
  N.iter n (fun c => snd (ctor c)) counter.

(** Two combinators default-constructed one after the other, the earlier
    first, with [between] other default constructions between the two. *)
Definition construct_pair (between : N) : stateful size_t.t (t * t) :=
  fun counter =>
    let (a, counter1) := ctor counter in
    let (b, counter2) := ctor (construct_many between counter1) in
    ((a, b), counter2).

End Members.

End combinator_base.
End detail.

(** [is_combinator<T>]: [T] derives from [detail::combinator_base]. *)
Class is_combinator (C : Type) : Type := {
  base : C -> detail.combinator_base.t
}.

Definition parser_id {C : Type} `{is_combinator C} (c : C) : size_t.t :=
  detail.combinator_base.parser_id (base c).

(** A bare [combinator_base] is a combinator. *)
#[export] Instance combinator_base_is_combinator
  : is_combinator detail.combinator_base.t := {
  base c := c
}.

Module action.

(** [action<Cmb, Fn>] derives from [combinator<action<Cmb, Fn>>], hence
    from [detail::combinator_base], and holds [Cmb m_Parser; Fn m_Fn;]. *)
Record t (Cmb Fn : Type) : Type := mk {
  m_Base : detail.combinator_base.t;
  m_Parser : Cmb;
  m_Fn : Fn
}.

Section Members.
Context {P : Platform} {Cmb Fn : Type}.

(** [action(CmbFwd&& cmb, FnFwd&& fn)
      : m_Parser(cppcmb_fwd(cmb)), m_Fn(cppcmb_fwd(fn))]: the base
    subobject is default-constructed first and takes a fresh identity;
    [m_Parser] is copied or moved from [cmb], identity included. *)
Definition ctor (cmb : Cmb) (fn : Fn) : stateful size_t.t (t Cmb Fn) :=
  b <- detail.combinator_base.ctor ;;
  ret {| m_Base := b; m_Parser := cmb; m_Fn := fn |}.

End Members.

End action.

#[export] Instance action_is_combinator (Cmb Fn : Type)
  : is_combinator (action.t Cmb Fn) := {
  base a := action.m_Base a
}.

Module combinator.

Section Members.
Context {P : Platform} {Self Fn : Type} `{is_combinator Self}.

(** [operator[](Fn&& fn)], in its four overloads:
    [return action(this->self(), cppcmb_fwd(fn));] (with [std::move] around
    [this->self()] in the two rvalue overloads). *)
Definition subscript (self : Self) (fn : Fn)
  : stateful size_t.t (action.t Self Fn) :=
  action.ctor self fn.

End Members.

End combinator.

(* ------------------------------------------------------------------ *)
(** * Invocation *)

(** Modelled from the spec: the operation that runs a combinator on a
    reader.  The header defines no such member for any combinator; the
    spec's system overview has a combinator invoked with a reader state
    and returning a [result<T>].  The invocation may have side effects on
    some state [W] of the program, since a transform function is an
    arbitrary C++ callable. *)
Class Invocable (W Src T C : Type) : Type := {
  invoke : C -> reader.t Src -> stateful W (result.t T)
}.

Section ActionInvoke.
Context {W Src T U Cmb : Type} {I : Invocable W Src T Cmb}.

(** Modelled from the spec: the invocation contract of [action], which the
    header leaves unwritten ([// XXX(LPeter1997): Implement]).  In the
    spec's words: invoke the wrapped combinator on the reader; if it
    yields [Success(value, remaining)], apply the transform function to
    [value] and return [Success(fn(value), remaining)]; if it yields
    [Failure(furthest)], return that failure unchanged. *)
Definition action_invoke (a : action.t Cmb (T -> stateful W U))
  (rd : reader.t Src) : stateful W (result.t U) :=
  r <- invoke (action.m_Parser a) rd ;;
  match result.m_Data r with
  | inl s =>
      v <- action.m_Fn a (success.value_rvalue s) ;;
      ret (result.of_success (success.ctor v (success.remaining s)))
  | inr f => ret (result.of_failure f)
  end.

End ActionInvoke.

#[export] Instance action_invocable (W Src T U Cmb : Type)
  (I : Invocable W Src T Cmb)
  : Invocable W Src U (action.t Cmb (T -> stateful W U)) := {
  invoke := action_invoke
}.

(* ------------------------------------------------------------------ *)
(** * Fixtures of the spec's scenarios *)

(** A combinator that always returns the same result, whatever the
    reader. *)
Record always (T : Type) : Type := mk_always {
  always_base : detail.combinator_base.t;
  always_result : result.t T
}.

#[export] Instance always_is_combinator (T : Type)
  : is_combinator (always T) := {
  base c := always_base c
}.

#[export] Instance always_invocable (W Src T : Type)
  : Invocable W Src T (always T) := {
  invoke c _ := ret (always_result c)
}.

Definition make_always {P : Platform} {T : Type} (r : result.t T)
  : stateful size_t.t (always T) :=
  b <- detail.combinator_base.ctor ;;
  ret {| always_base := b; always_result := r |}.

Definition upper_ascii (c : ascii) : ascii :=
  let n := N_of_ascii c in
  if (97 <=? n) && (n <=? 122) then ascii_of_N (n - 32) else c.

Fixpoint uppercase (s : string) : string :=
  match s with
  | EmptyString => EmptyString
  | String c s' => String (upper_ascii c) (uppercase s')
  end.

(** A transform function that counts its own invocations in the program
    state. *)
Definition counting {T U : Type} (f : T -> U) : T -> stateful nat U :=
  fun v calls => (f v, S calls).

(* ------------------------------------------------------------------ *)
(** * Properties of std::size_t arithmetic *)

Section SizeFacts.
Context {P : Platform}.

Lemma modulus_nonzero : size_t.modulus <> 0.
Proof. unfold size_t.modulus. apply N.pow_nonzero. discriminate. Qed.

Lemma modulus_pos : 0 < size_t.modulus.
Proof. pose proof modulus_nonzero. lia. Qed.

Lemma wrap_in_range (n : N) : size_t.in_range (size_t.wrap n).
Proof. apply N.mod_upper_bound, modulus_nonzero. Qed.

Lemma wrap_small (n : N) : size_t.in_range n -> size_t.wrap n = n.
Proof. intros Hn. apply N.mod_small, Hn. Qed.

Lemma wrap_add_wrap_l (a b : N) :
  size_t.wrap (size_t.wrap a + b) = size_t.wrap (a + b).
Proof. unfold size_t.wrap. apply N.Div0.add_mod_idemp_l. Qed.

End SizeFacts.

Example LP64_size_max : size_t.max (P := LP64) = 18446744073709551615.
Proof. reflexivity. Qed.

(* ------------------------------------------------------------------ *)
(** * Properties of the reader *)

Section ReaderFacts.
Context {P : Platform} {Src : Type} {RS : ReaderSource Src}.
Implicit Types (r : reader.t Src) (idx : size_t.t).

Lemma is_end_iff r :
  reader.is_end r = true <-> reader.cursor r = std_size (reader.source r).
Proof. unfold reader.is_end. apply N.eqb_eq. Qed.

Lemma is_end_false_iff r :
  reader.is_end r = false <-> reader.cursor r <> std_size (reader.source r).
Proof. unfold reader.is_end. apply N.eqb_neq. Qed.

(** [seek] passes its assertion exactly below the length of the source. *)
Lemma seek_in_bounds idx r :
  idx < std_size (reader.source r) ->
  reader.seek idx r = Done (reader.mk (reader.source r) idx).
Proof.
  intros Hlt. unfold reader.seek.
  apply N.ltb_lt in Hlt. rewrite Hlt. reflexivity.
Qed.

Lemma seek_out_of_bounds idx r :
  std_size (reader.source r) <= idx ->
  reader.seek idx r = AssertFail reader.seek_msg.
Proof.
  intros Hge. unfold reader.seek.
  apply N.ltb_ge in Hge. rewrite Hge. reflexivity.
Qed.

Lemma seek_to_length_bound r :
  reader.seek (std_size (reader.source r)) r = AssertFail reader.seek_msg.
Proof. apply seek_out_of_bounds, N.le_refl. Qed.

Lemma seek_done_inv idx r r' :
  reader.seek idx r = Done r' ->
  idx < std_size (reader.source r) /\ r' = reader.mk (reader.source r) idx.
Proof.
  unfold reader.seek. destruct (idx <? _) eqn:Hlt; simpl; intros Heq.
  - apply N.ltb_lt in Hlt. injection Heq as <-.
    split; [exact Hlt | reflexivity].
  - discriminate.
Qed.

(** Whatever the state before, a [seek] that returns leaves the cursor on
    an element, never at the end. *)
Lemma seek_done_not_end idx r r' :
  reader.seek idx r = Done r' ->
  reader.source r' = reader.source r /\
  reader.cursor r' = idx /\
  reader.is_end r' = false.
Proof.
  intros Hseek. apply seek_done_inv in Hseek as [Hlt ->].
  repeat split. apply is_end_false_iff.
  unfold reader.source, reader.cursor in *. simpl. lia.
Qed.

(** [next] is [seek(cursor() + 1)] behind its own assertion. *)
Lemma next_unfold r :
  reader.next r =
  if reader.is_end r then AssertFail reader.next_msg
  else reader.seek (size_t.add (reader.cursor r) 1) r.
Proof. unfold reader.next. destruct (reader.is_end r); reflexivity. Qed.

Lemma next_at_end r :
  reader.is_end r = true -> reader.next r = AssertFail reader.next_msg.
Proof. intros Hend. rewrite next_unfold, Hend. reflexivity. Qed.

(** Where [next] returns, the cursor has moved one element forward and is
    still on an element. *)
Lemma next_before_last r :
  size_t.in_range (std_size (reader.source r)) ->
  reader.cursor r + 1 < std_size (reader.source r) ->
  reader.next r = Done (reader.mk (reader.source r) (reader.cursor r + 1)).
Proof.
  intros Hrange Hlt. rewrite next_unfold.
  assert (Hend : reader.is_end r = false) by (apply is_end_false_iff; lia).
  rewrite Hend. unfold size_t.add. rewrite wrap_small.
  - apply seek_in_bounds, Hlt.
  - unfold size_t.in_range in *. lia.
Qed.

Lemma perform_done_not_end (c : reader.call) r r' :
  reader.perform c r = Done r' ->
  reader.source r' = reader.source r /\ reader.is_end r' = false.
Proof.
  destruct c as [idx|]; simpl.
  - intros Hseek. apply seek_done_not_end in Hseek. tauto.
  - rewrite next_unfold. destruct (reader.is_end r); [discriminate|].
    intros Hseek. apply seek_done_not_end in Hseek. tauto.
Qed.

(** A run of calls that all return either made no call at all or left the
    cursor on an element of the same source. *)
Lemma run_done_inv (cs : list reader.call) : forall r r',
  reader.run cs r = Done r' ->
  reader.source r' = reader.source r /\
  ((cs = [] /\ r' = r) \/ (cs <> [] /\ reader.is_end r' = false)).
Proof.
  induction cs as [|c cs IH]; simpl; intros r r' Hrun.
  - injection Hrun as <-. split; [reflexivity | left; split; reflexivity].
  - destruct (reader.perform c r) as [r1|msg] eqn:Hc; simpl in Hrun;
      [|discriminate].
    apply perform_done_not_end in Hc as [Hsrc1 Hend1].
    apply IH in Hrun as [Hsrc [[-> ->] | [Hne Hend]]].
    + split; [exact Hsrc1 | right; split; [discriminate | exact Hend1]].
    + split; [congruence | right; split; [discriminate | exact Hend]].
Qed.

End ReaderFacts.

(** The spec's scenario on the three characters of "abc", on a 64-bit
    platform: the reader starts on 'a', [next] moves it to 'b', and the
    last position that [seek] accepts is 2. *)
Example abc_scenario :
  let r0 := reader.ctor "abc"%string in
  reader.current r0 = Some "a"%char /\
  reader.next (P := LP64) r0 = Done (reader.mk "abc"%string 1) /\
  reader.current (reader.mk "abc"%string 1) = Some "b"%char /\
  reader.seek 2 r0 = Done (reader.mk "abc"%string 2) /\
  reader.seek 3 r0 = AssertFail reader.seek_msg.
Proof. repeat split. Qed.

(** C1, evaluated on the code: [seek] asserts [idx < std::size(source())],
    so seeking to the length of the source itself (the end-of-input
    position, which the claim counts as within bounds) trips the
    assertion, for every reader; on "abc" that is [seek(3)]. *)
Theorem seek_to_length_trips_assertion :
  forall (Src : Type) (RS : ReaderSource Src) (r : reader.t Src),
    reader.seek (std_size (reader.source r)) r
    = AssertFail reader.seek_msg.
Proof.
  intros Src RS r. apply seek_to_length_bound.
Qed.

(** C2, evaluated on the code: on the last element of a source the reader
    is not at the end, so the assertion of [next] passes, but
    [seek(cursor() + 1)] is then called with the length of the source and
    its assertion fails: [next] is a contract violation there although
    [!is_end()] holds. *)
Theorem next_on_last_element_trips_assertion :
  forall (P : Platform) (Src : Type) (RS : ReaderSource Src)
         (r : reader.t Src),
    size_t.in_range (std_size (reader.source r)) ->
    reader.cursor r + 1 = std_size (reader.source r) ->
    reader.is_end r = false /\
    reader.next r = AssertFail reader.seek_msg.
Proof.
  intros P Src RS r Hrange Hlast.
  assert (Hend : reader.is_end r = false) by (apply is_end_false_iff; lia).
  split; [exact Hend|].
  rewrite next_unfold, Hend. unfold size_t.add.
  rewrite Hlast, (wrap_small Hrange).
  apply seek_to_length_bound.
Qed.

Lemma next_on_last_element_witness :
  let r := reader.mk "abc"%string 2 in
  reader.run (P := LP64) [reader.Seek 2] (reader.ctor "abc"%string) = Done r /\
  reader.current r = Some "c"%char /\
  reader.is_end r = false /\
  reader.next (P := LP64) r = AssertFail reader.seek_msg.
Proof.
  split; [reflexivity|]. split; [reflexivity|].
  apply (@next_on_last_element_trips_assertion LP64 string string_source
           (reader.mk "abc"%string 2)).
  - reflexivity.
  - reflexivity.
Defined.

(** C9: a freshly constructed reader has cursor 0 and is at the end
    exactly when the source is empty; for every reader, [is_end()] holds
    iff the cursor equals the length of the source. *)
Theorem fresh_reader_cursor_and_end :
  forall (Src : Type) (RS : ReaderSource Src) (src : Src),
    reader.cursor (reader.ctor src) = 0 /\
    reader.is_end (reader.ctor src) = (std_size src =? 0) /\
    (forall r : reader.t Src,
        reader.is_end r = true <->
        reader.cursor r = std_size (reader.source r)).
Proof.
  intros Src RS src. split; [reflexivity|]. split.
  - unfold reader.is_end, reader.cursor, reader.source, reader.ctor.
    cbn [reader.m_Cursor reader.m_Source]. apply N.eqb_sym.
  - intros r. apply is_end_iff.
Qed.

(** C10: after any sequence of [seek] and [next] calls on a freshly
    constructed reader in which every assertion held, the reader is at
    end-of-input iff no call was made and the source is empty.  In
    particular a [seek] that satisfies its assertion leaves [is_end()]
    false, and [cursor() == length] is met only by the reader constructed
    over an empty source. *)
Theorem end_reached_only_over_empty_source :
  forall (P : Platform) (Src : Type) (RS : ReaderSource Src)
         (src : Src) (cs : list reader.call) (r : reader.t Src),
    reader.run cs (reader.ctor src) = Done r ->
    (reader.is_end r = true <-> cs = [] /\ std_size src = 0).
Proof.
  intros P Src RS src cs r Hrun.
  apply run_done_inv in Hrun as [_ [[-> ->] | [Hne Hend]]].
  - unfold reader.is_end, reader.cursor, reader.source, reader.ctor.
    cbn [reader.m_Cursor reader.m_Source]. rewrite N.eqb_eq. split.
    + intros H. split; [reflexivity | symmetry; exact H].
    + intros [_ H]. symmetry; exact H.
  - rewrite Hend. split; [discriminate | intros [Hcs _]; contradiction].
Qed.

Lemma end_reached_only_over_empty_source_witness :
  reader.run (P := LP64) [reader.Seek 2; reader.Seek 0; reader.Next]
             (reader.ctor "abc"%string)
  = Done (reader.mk "abc"%string 1) /\
  (reader.is_end (reader.mk "abc"%string 1) = true <->
   [reader.Seek 2; reader.Seek 0; reader.Next] = [] /\
   std_size "abc"%string = 0).
Proof.
  split; [reflexivity|].
  apply (@end_reached_only_over_empty_source LP64 string string_source
           "abc"%string [reader.Seek 2; reader.Seek 0; reader.Next]).
  reflexivity.
Defined.

(* ------------------------------------------------------------------ *)
(** * Properties of the result model *)

(** C6: the success object built from [(v, r)] gives back [v] through
    each of the four overloads of [value()] and [r] through
    [remaining()]. *)
Theorem success_accessors :
  forall (T : Type) (v : T) (r : size_t.t),
    success.value_lvalue (success.ctor v r) = v /\
    success.value_const_lvalue (success.ctor v r) = v /\
    success.value_rvalue (success.ctor v r) = v /\
    success.value_const_rvalue (success.ctor v r) = v /\
    success.remaining (success.ctor v r) = r.
Proof. intros T v r. repeat split. Qed.

(** C7: the failure object built from [f] gives back [f] through
    [furthest()]. *)
Theorem failure_furthest :
  forall f : size_t.t, failure.furthest (failure.ctor f) = f.
Proof. intros f. reflexivity. Qed.

Lemma holds_exactly_one (T : Type) (r : result.t T) :
  result.is_success r = negb (result.is_failure r).
Proof.
  unfold result.is_success, result.is_failure.
  destruct (result.m_Data r); reflexivity.
Qed.

(** C5: a result holds exactly one of its two alternatives, whether it was
    constructed from a success or from a failure: [is_success()] and
    [is_failure()] always differ. *)
Theorem result_is_success_xor_is_failure :
  forall T : Type,
    (forall s : success.t T,
        result.is_success (result.of_success s) = true /\
        result.is_failure (result.of_success s) = false) /\
    (forall f : failure.t,
        result.is_success (result.of_failure (T := T) f) = false /\
        result.is_failure (result.of_failure (T := T) f) = true) /\
    (forall r : result.t T,
        result.is_success r <> result.is_failure r).
Proof.
  intros T. repeat split.
  intros r. rewrite holds_exactly_one.
  destruct (result.is_failure r); discriminate.
Qed.

(* ------------------------------------------------------------------ *)
(** * Properties of the combinator identity *)

Section IdentityFacts.
Context {P : Platform}.
Import detail.

Lemma ctor_id (counter : size_t.t) :
  combinator_base.parser_id (fst (combinator_base.ctor counter)) = counter.
Proof. reflexivity. Qed.

Lemma ctor_counter (counter : size_t.t) :
  snd (combinator_base.ctor counter) = size_t.wrap (counter + 1).
Proof. reflexivity. Qed.

(** The counter after [n] default constructions is the counter before plus
    [n], modulo the size of [std::size_t]. *)
Lemma construct_many_counter (n : N) (counter : size_t.t) :
  size_t.in_range counter ->
  combinator_base.construct_many n counter = size_t.wrap (counter + n).
Proof.
  intros Hrange. unfold combinator_base.construct_many.
  induction n as [|n IH] using N.peano_ind.
  - simpl. rewrite N.add_0_r. symmetry. apply wrap_small, Hrange.
  - rewrite N.iter_succ, IH, ctor_counter, wrap_add_wrap_l.
    f_equal. lia.
Qed.

(** The identities of a pair: the earlier one is the counter, the later
    one the counter plus the constructions up to it. *)
Lemma construct_pair_ids (between : N) (counter : size_t.t) :
  size_t.in_range counter ->
  let ab := fst (combinator_base.construct_pair between counter) in
  combinator_base.parser_id (fst ab) = counter /\
  combinator_base.parser_id (snd ab) = size_t.wrap (counter + 1 + between).
Proof.
  intros Hrange. unfold combinator_base.construct_pair.
  cbn -[combinator_base.construct_many size_t.add].
  split; [reflexivity|].
  unfold size_t.add.
  rewrite (construct_many_counter between (wrap_in_range (counter + 1))).
  apply wrap_add_wrap_l.
Qed.

End IdentityFacts.

(** Every value of [std::size_t] is a state of the counter that the
    process reaches, by that many default constructions from its start. *)
Lemma every_counter_reached {P : Platform} (counter : size_t.t) :
  size_t.in_range counter ->
  detail.combinator_base.construct_many counter
    detail.combinator_base.s_ID_Counter_init = counter.
Proof.
  intros Hrange.
  rewrite construct_many_counter by apply modulus_pos.
  apply wrap_small, Hrange.
Qed.

(** The copy constructor hands on the identity and takes none from the
    counter. *)
Lemma copy_ctor_keeps_identity {P : Platform}
  (c : detail.combinator_base.t) (counter : size_t.t) :
  detail.combinator_base.parser_id
    (fst (detail.combinator_base.copy_ctor c counter))
  = detail.combinator_base.parser_id c /\
  snd (detail.combinator_base.copy_ctor c counter) = counter.
Proof. split; reflexivity. Qed.

(** A copy of a combinator carries the identity of its original: the
    wrapped parser of the action made by [operator[]] has the identity of
    the receiver, and the action itself takes the next fresh one. *)
Lemma subscript_identities {P : Platform} {Self Fn : Type}
  `{is_combinator Self} (self : Self) (fn : Fn) (counter : size_t.t) :
  let a := fst (combinator.subscript self fn counter) in
  parser_id (action.m_Parser a) = parser_id self /\
  parser_id a = counter /\
  snd (combinator.subscript self fn counter) = size_t.add counter 1.
Proof. repeat split. Qed.

(** C8, as stated, fails on the code at the wrap-around of the counter.
    On a 64-bit platform, once [SIZE_MAX] combinators have been
    constructed, the next two constructed one directly after the other
    get the identities [SIZE_MAX] and [0], the later one the smaller; and
    the first combinator of the process and the one constructed
    [SIZE_MAX] constructions after it both get identity [0]. *)
Lemma identity_counter_wraps :
  let counter :=
    detail.combinator_base.construct_many (P := LP64)
      18446744073709551615 detail.combinator_base.s_ID_Counter_init in
  let consecutive :=
    fst (detail.combinator_base.construct_pair (P := LP64) 0 counter) in
  let far :=
    fst (detail.combinator_base.construct_pair (P := LP64)
           18446744073709551615 detail.combinator_base.s_ID_Counter_init) in
  (detail.combinator_base.parser_id (fst consecutive) = 18446744073709551615 /\
   detail.combinator_base.parser_id (snd consecutive) = 0 /\
   detail.combinator_base.parser_id (snd consecutive)
   < detail.combinator_base.parser_id (fst consecutive)) /\
  (detail.combinator_base.parser_id (fst far) = 0 /\
   detail.combinator_base.parser_id (snd far) = 0).
Proof.
  assert (Hmax : size_t.in_range (P := LP64) 18446744073709551615)
    by reflexivity.
  assert (Hzero : size_t.in_range (P := LP64) 0) by reflexivity.
  cbv zeta. rewrite (every_counter_reached (P := LP64) Hmax).
  destruct (construct_pair_ids (P := LP64) 0 Hmax) as [Ha Hb].
  destruct (construct_pair_ids (P := LP64) 18446744073709551615 Hzero)
    as [Hc Hd].
  cbv zeta in Ha, Hb, Hc, Hd.
  unfold detail.combinator_base.s_ID_Counter_init.
  rewrite Ha, Hb, Hc, Hd.
  repeat split.
Qed.

(** C8, amended: two combinators default-constructed one after the other
    (with any number of default constructions between them) get distinct
    identities, the later one strictly greater, provided the counter does
    not pass [SIZE_MAX] on the way from the earlier to the later. *)
Theorem identities_increase_before_wrap :
  forall (P : Platform) (counter : size_t.t) (between : N),
    counter + 1 + between < size_t.modulus ->
    let ab := fst (detail.combinator_base.construct_pair between counter) in
    detail.combinator_base.parser_id (fst ab)
    < detail.combinator_base.parser_id (snd ab) /\
    detail.combinator_base.parser_id (fst ab)
    <> detail.combinator_base.parser_id (snd ab).
Proof.
  intros P counter between Hfit.
  assert (Hrange : size_t.in_range counter)
    by (unfold size_t.in_range; lia).
  destruct (construct_pair_ids between Hrange) as [Ha Hb].
  cbv zeta in *. rewrite Ha, Hb, (wrap_small Hfit). lia.
Qed.

Lemma identities_increase_before_wrap_witness :
  let ab :=
    fst (detail.combinator_base.construct_pair (P := LP64) 3
           detail.combinator_base.s_ID_Counter_init) in
  detail.combinator_base.parser_id (fst ab) = 0 /\
  detail.combinator_base.parser_id (snd ab) = 4 /\
  (detail.combinator_base.parser_id (fst ab)
   < detail.combinator_base.parser_id (snd ab) /\
   detail.combinator_base.parser_id (fst ab)
   <> detail.combinator_base.parser_id (snd ab)).
Proof.
  split; [reflexivity|]. split; [reflexivity|].
  apply (@identities_increase_before_wrap LP64
           detail.combinator_base.s_ID_Counter_init 3).
  reflexivity.
Defined.

(* ------------------------------------------------------------------ *)
(** * Properties of the action combinator *)

Section ActionFacts.
Context {P : Platform} {W Src T U Cmb : Type} {I : Invocable W Src T Cmb}.
Implicit Types (c : Cmb) (fn : T -> stateful W U) (rd : reader.t Src).

(** The constructor stores what it is given. *)
Lemma action_ctor_members c fn (counter : size_t.t) :
  action.m_Parser (fst (action.ctor c fn counter)) = c /\
  action.m_Fn (fst (action.ctor c fn counter)) = fn.
Proof. split; reflexivity. Qed.

(** Invoking an action is invoking the wrapped combinator and then
    looking at the alternative its result holds. *)
Lemma action_invoke_after_parser (a : action.t Cmb (T -> stateful W U))
  rd (w w' : W) (r : result.t T) :
  invoke (action.m_Parser a) rd w = (r, w') ->
  action_invoke a rd w =
  match result.m_Data r with
  | inl s =>
      let (v, w'') := action.m_Fn a (success.value_rvalue s) w' in
      (result.of_success (success.ctor v (success.remaining s)), w'')
  | inr f => (result.of_failure f, w')
  end.
Proof.
  intros Hinv. unfold action_invoke, bind. rewrite Hinv.
  destruct (result.m_Data r) as [s|f]; reflexivity.
Qed.

End ActionFacts.

(** C3: if the wrapped combinator yields [Success(value, remaining)] on a
    reader, the action built from it and [fn] yields, on that reader,
    [Success(fn(value), remaining)]: the value goes through [fn], called
    once, on the state the wrapped combinator left, and [remaining] is
    the same. *)
Theorem action_maps_success_value :
  forall (P : Platform) (W Src T U Cmb : Type) (I : Invocable W Src T Cmb)
         (c : Cmb) (fn : T -> stateful W U) (counter : size_t.t)
         (rd : reader.t Src) (w w' : W) (value : T) (remaining : size_t.t),
    invoke c rd w = (result.of_success (success.ctor value remaining), w') ->
    action_invoke (fst (action.ctor c fn counter)) rd w
    = (result.of_success (success.ctor (fst (fn value w')) remaining),
       snd (fn value w')).
Proof.
  intros P W Src T U Cmb I c fn counter rd w w' value remaining Hinv.
  rewrite (action_invoke_after_parser (fst (action.ctor c fn counter)) rd w Hinv).
  cbn. destruct (fn value w'); reflexivity.
Qed.

Lemma action_maps_success_value_witness :
  let x2 := result.of_success (success.ctor "x"%string 2) in
  let c := fst (make_always (P := LP64) x2 0) in
  let a := fst (combinator.subscript (P := LP64) c (counting uppercase) 1) in
  invoke (W := nat) (Src := string) c (reader.ctor "xyz"%string) 0%nat
  = (x2, 0%nat) /\
  action_invoke a (reader.ctor "xyz"%string) 0%nat
  = (result.of_success (success.ctor "X"%string 2), 1%nat).
Proof.
  split; [reflexivity|].
  apply (@action_maps_success_value LP64 nat string string string
           (always string) (always_invocable nat string string)
           (fst (make_always (P := LP64)
                   (result.of_success (success.ctor "x"%string 2)) 0))
           (counting uppercase) 1 (reader.ctor "xyz"%string)
           0%nat 0%nat "x"%string 2).
  reflexivity.
Defined.

(** C4: if the wrapped combinator yields [Failure(furthest)] on a reader,
    the action built from it and [fn] yields that same failure on that
    reader, and [fn] is not invoked: the state of the program is the one
    the wrapped combinator left, whatever [fn] would do to it. *)
Theorem action_passes_failure_through :
  forall (P : Platform) (W Src T U Cmb : Type) (I : Invocable W Src T Cmb)
         (c : Cmb) (fn : T -> stateful W U) (counter : size_t.t)
         (rd : reader.t Src) (w w' : W) (furthest : size_t.t),
    invoke c rd w = (result.of_failure (failure.ctor furthest), w') ->
    action_invoke (fst (action.ctor c fn counter)) rd w
    = (result.of_failure (failure.ctor furthest), w').
Proof.
  intros P W Src T U Cmb I c fn counter rd w w' furthest Hinv.
  rewrite (action_invoke_after_parser (fst (action.ctor c fn counter)) rd w Hinv).
  reflexivity.
Qed.

Lemma action_passes_failure_through_witness :
  let f5 := result.of_failure (T := string) (failure.ctor 5) in
  let c := fst (make_always (P := LP64) f5 0) in
  let a := fst (combinator.subscript (P := LP64) c (counting uppercase) 1) in
  invoke (W := nat) (Src := string) c (reader.ctor "xyz"%string) 0%nat
  = (f5, 0%nat) /\
  action_invoke a (reader.ctor "xyz"%string) 0%nat
  = (result.of_failure (failure.ctor 5), 0%nat).
Proof.
  split; [reflexivity|].
  apply (@action_passes_failure_through LP64 nat string string string
           (always string) (always_invocable nat string string)
           (fst (make_always (P := LP64)
                   (result.of_failure (T := string) (failure.ctor 5)) 0))
           (counting uppercase) 1 (reader.ctor "xyz"%string)
           0%nat 0%nat 5).
  reflexivity.
Defined.

(* ------------------------------------------------------------------ *)
(** * Further properties of the reader *)

Section ReaderRuns.
Context {P : Platform} {Src : Type} {RS : ReaderSource Src}.
Implicit Types (r : reader.t Src) (cs : list reader.call).

Lemma reader_eta r : reader.mk (reader.source r) (reader.cursor r) = r.
Proof. destruct r; reflexivity. Qed.

Lemma perform_done_bound (c : reader.call) r r' :
  reader.perform c r = Done r' ->
  reader.source r' = reader.source r /\
  reader.cursor r' < std_size (reader.source r).
Proof.
  assert (Hseek : forall idx, reader.seek idx r = Done r' ->
            reader.source r' = reader.source r /\
            reader.cursor r' < std_size (reader.source r)).
  { intros idx Hs. apply seek_done_inv in Hs as [Hlt ->].
    split; [reflexivity | exact Hlt]. }
  destruct c as [idx|]; simpl.
  - apply Hseek.
  - rewrite next_unfold. destruct (reader.is_end r); [discriminate|].
    apply Hseek.
Qed.

(** After at least one call, the cursor is on an element. *)
Lemma run_done_bound cs : forall r r',
  reader.run cs r = Done r' ->
  cs <> [] ->
  reader.source r' = reader.source r /\
  reader.cursor r' < std_size (reader.source r).
Proof.
  induction cs as [|c cs IH]; intros r r' Hrun Hne; [contradiction|].
  simpl in Hrun.
  destruct (reader.perform c r) as [r1|msg] eqn:Hc; simpl in Hrun;
    [|discriminate].
  apply perform_done_bound in Hc as [Hsrc1 Hlt1].
  destruct cs as [|c' cs'].
  - injection Hrun as <-. split; assumption.
  - apply IH in Hrun as [Hsrc Hlt]; [|discriminate].
    rewrite Hsrc1 in *. split; assumption.
Qed.

Lemma run_app cs1 cs2 r :
  reader.run (cs1 ++ cs2) r
  = checked_bind (reader.run cs1 r) (reader.run cs2).
Proof.
  revert r. induction cs1 as [|c cs1 IH]; intros r; simpl; [reflexivity|].
  destruct (reader.perform c r) as [r1|msg]; simpl; [apply IH | reflexivity].
Qed.

(** The calls of [next] that return: as long as the target is an element,
    [k] of them move the cursor [k] elements forward. *)
Lemma run_next_forward (k : nat) : forall r,
  size_t.in_range (std_size (reader.source r)) ->
  (k = 0%nat \/ reader.cursor r + N.of_nat k < std_size (reader.source r)) ->
  reader.run (repeat reader.Next k) r
  = Done (reader.mk (reader.source r) (reader.cursor r + N.of_nat k)).
Proof.
  induction k as [|k IH]; intros r Hrange Hfit.
  - simpl. rewrite N.add_0_r, reader_eta. reflexivity.
  - destruct Hfit as [Hk | Hfit]; [discriminate|].
    cbn [repeat reader.run reader.perform].
    rewrite next_before_last by (assumption || lia).
    cbn [checked_bind]. rewrite IH.
    + cbn [reader.source reader.cursor reader.m_Source reader.m_Cursor].
      do 2 f_equal. lia.
    + exact Hrange.
    + right. cbn [reader.source reader.cursor reader.m_Source reader.m_Cursor].
      fold (reader.source r). fold (reader.cursor r). lia.
Qed.

(** [next] on the last element fails in [seek]. *)
Lemma next_at_last r :
  size_t.in_range (std_size (reader.source r)) ->
  reader.cursor r + 1 = std_size (reader.source r) ->
  reader.next r = AssertFail reader.seek_msg.
Proof.
  intros Hrange Hlast. rewrite next_unfold.
  assert (Hend : reader.is_end r = false) by (apply is_end_false_iff; lia).
  rewrite Hend. unfold size_t.add. rewrite Hlast, (wrap_small Hrange).
  apply seek_to_length_bound.
Qed.

End ReaderRuns.

(** X1: the reader keeps its invariant.  After any sequence of [seek] and
    [next] calls on a freshly constructed reader in which every assertion
    held, the reader still refers to the source it was constructed over
    and its cursor is at most the length of that source. *)
Theorem reader_keeps_source_and_bounds :
  forall (P : Platform) (Src : Type) (RS : ReaderSource Src)
         (src : Src) (cs : list reader.call) (r : reader.t Src),
    reader.run cs (reader.ctor src) = Done r ->
    reader.source r = src /\ reader.cursor r <= std_size src.
Proof.
  intros P Src RS src cs r Hrun.
  destruct cs as [|c cs].
  - injection Hrun as <-. split; [reflexivity | apply N.le_0_l].
  - apply run_done_bound in Hrun as [Hsrc Hlt]; [|discriminate].
    split; [exact Hsrc | apply N.lt_le_incl, Hlt].
Qed.

Lemma reader_keeps_source_and_bounds_witness :
  reader.run (P := LP64) [reader.Seek 2; reader.Next; reader.Seek 1]
             (reader.ctor [10; 20; 30; 40])
  = Done (reader.mk [10; 20; 30; 40] 1) /\
  reader.source (reader.mk [10; 20; 30; 40] 1) = [10; 20; 30; 40] /\
  reader.cursor (reader.mk [10; 20; 30; 40] 1) <= std_size [10; 20; 30; 40].
Proof.
  split; [reflexivity|].
  apply (@reader_keeps_source_and_bounds LP64 (list N) (list_source N)
           [10; 20; 30; 40] [reader.Seek 2; reader.Next; reader.Seek 1]).
  reflexivity.
Defined.

(** X2: over a list, [current()] never reads outside the source once a
    call has returned.  After any sequence of [seek] and [next] calls on a
    freshly constructed reader in which every assertion held, [current()]
    finds no element only if the list is empty (and then no call was
    made). *)
Theorem current_in_bounds_unless_empty :
  forall (P : Platform) (A : Type) (l : list A)
         (cs : list reader.call) (r : reader.t (list A)),
    reader.run cs (reader.ctor l) = Done r ->
    (reader.current r = None <-> l = []) /\
    (l = [] -> cs = []).
Proof.
  intros P A l cs r Hrun.
  destruct cs as [|c cs].
  - injection Hrun as <-. split; [|reflexivity].
    unfold reader.current. simpl. destruct l; split; congruence.
  - apply run_done_bound in Hrun as [Hsrc Hlt]; [|discriminate].
    simpl in Hlt. split.
    + unfold reader.current. rewrite Hsrc. simpl.
      rewrite nth_error_None. split.
      * intros Hle. lia.
      * intros ->. simpl in Hlt. lia.
    + intros ->. simpl in Hlt. lia.
Qed.

Lemma current_in_bounds_unless_empty_witness :
  reader.run (P := LP64) [reader.Seek 2; reader.Next]
             (reader.ctor [10; 20; 30; 40])
  = Done (reader.mk [10; 20; 30; 40] 3) /\
  reader.current (reader.mk [10; 20; 30; 40] 3) = Some 40 /\
  ((reader.current (reader.mk [10; 20; 30; 40] 3) = None
    <-> [10; 20; 30; 40] = []) /\
   ([10; 20; 30; 40] = [] -> [reader.Seek 2; reader.Next] = [])).
Proof.
  split; [reflexivity|]. split; [reflexivity|].
  apply (@current_in_bounds_unless_empty LP64 N [10; 20; 30; 40]
           [reader.Seek 2; reader.Next]).
  reflexivity.
Defined.

(** X3: walking a source with [next].  On a fresh reader over a source of
    length [L], [k] calls of [next] return, with the cursor at [k], exactly
    when [k = 0] or [k < L]; once [k] reaches [L] the walk has tripped an
    assertion: the one of [next] itself over an empty source, the one of
    [seek] otherwise.  The cursor never reaches [L] by [next]. *)
Theorem next_walk :
  forall (P : Platform) (Src : Type) (RS : ReaderSource Src)
         (src : Src) (k : nat),
    size_t.in_range (std_size src) ->
    reader.run (repeat reader.Next k) (reader.ctor src)
    = if (N.of_nat k =? 0) || (N.of_nat k <? std_size src)
      then Done (reader.mk src (N.of_nat k))
      else AssertFail (if std_size src =? 0
                       then reader.next_msg else reader.seek_msg).
Proof.
  intros P Src RS src k Hrange.
  destruct ((N.of_nat k =? 0) || (N.of_nat k <? std_size src)) eqn:Hok.
  - rewrite run_next_forward.
    + reflexivity.
    + exact Hrange.
    + apply orb_true_iff in Hok as [H0 | Hlt].
      * left. apply N.eqb_eq in H0. lia.
      * right. apply N.ltb_lt in Hlt. simpl. exact Hlt.
  - apply orb_false_iff in Hok as [H0 Hge].
    apply N.eqb_neq in H0. apply N.ltb_ge in Hge.
    destruct (std_size src =? 0) eqn:Hempty.
    + apply N.eqb_eq in Hempty.
      destruct k as [|k]; [lia|].
      cbn [repeat reader.run reader.perform].
      rewrite next_at_end; [reflexivity|].
      apply is_end_iff. simpl. symmetry. exact Hempty.
    + apply N.eqb_neq in Hempty.
      set (j := N.to_nat (std_size src - 1)).
      assert (Hk : k = (j + S (k - S j))%nat) by lia.
      rewrite Hk, repeat_app, run_app, run_next_forward.
      * cbn [checked_bind repeat reader.run reader.perform].
        rewrite next_at_last; [reflexivity | exact Hrange |].
        simpl. lia.
      * exact Hrange.
      * right. simpl. lia.
Qed.

Lemma next_walk_witness :
  reader.run (P := LP64) (repeat reader.Next 2) (reader.ctor "abc"%string)
  = Done (reader.mk "abc"%string 2) /\
  reader.run (P := LP64) (repeat reader.Next 3) (reader.ctor "abc"%string)
  = AssertFail reader.seek_msg.
Proof.
  split.
  - apply (@next_walk LP64 string string_source "abc"%string 2). reflexivity.
  - apply (@next_walk LP64 string string_source "abc"%string 3). reflexivity.
Defined.

(** X4: backtracking by [seek].  Whatever calls have returned since, a
    reader is put back exactly into an earlier state by seeking to the
    cursor of that state, if and only if that cursor was on an element;
    the fresh reader over an empty source cannot be restored this way. *)
Theorem seek_restores_earlier_state :
  forall (P : Platform) (Src : Type) (RS : ReaderSource Src)
         (r0 : reader.t Src) (cs : list reader.call) (r : reader.t Src),
    reader.run cs r0 = Done r ->
    (reader.seek (reader.cursor r0) r = Done r0
     <-> reader.cursor r0 < std_size (reader.source r0)).
Proof.
  intros P Src RS r0 cs r Hrun.
  apply run_done_inv in Hrun as [Hsrc _]. split.
  - intros Hseek. apply seek_done_inv in Hseek as [Hlt _]. congruence.
  - intros Hlt. rewrite seek_in_bounds by congruence.
    rewrite Hsrc, reader_eta. reflexivity.
Qed.

Lemma seek_restores_earlier_state_witness :
  reader.run (P := LP64) [reader.Next; reader.Next]
             (reader.mk "abcd"%string 1)
  = Done (reader.mk "abcd"%string 3) /\
  (reader.seek (reader.cursor (reader.mk "abcd"%string 1))
               (reader.mk "abcd"%string 3)
   = Done (reader.mk "abcd"%string 1)
   <-> reader.cursor (reader.mk "abcd"%string 1)
       < std_size (reader.source (reader.mk "abcd"%string 1))).
Proof.
  split; [reflexivity|].
  apply (@seek_restores_earlier_state LP64 string string_source
           (reader.mk "abcd"%string 1) [reader.Next; reader.Next]).
  reflexivity.
Defined.

(** X5: when [next] returns.  In every state a reader reaches from its
    construction, [next()] returns if and only if the element after the
    current one exists ([cursor() + 1 < length]), and then it has moved
    the cursor by exactly one, without wrapping and without touching the
    source. *)
Theorem next_returns_iff_successor_exists :
  forall (P : Platform) (Src : Type) (RS : ReaderSource Src)
         (src : Src) (cs : list reader.call) (r r' : reader.t Src),
    size_t.in_range (std_size src) ->
    reader.run cs (reader.ctor src) = Done r ->
    (reader.next r = Done r'
     <-> reader.cursor r + 1 < std_size src /\
         r' = reader.mk src (reader.cursor r + 1)).
Proof.
  intros P Src RS src cs r r' Hrange Hrun.
  assert (Hinv : reader.source r = src /\ reader.cursor r <= std_size src).
  { destruct cs as [|c cs].
    - injection Hrun as <-. split; [reflexivity | apply N.le_0_l].
    - apply run_done_bound in Hrun as [Hsrc Hlt]; [|discriminate].
      split; [exact Hsrc | apply N.lt_le_incl, Hlt]. }
  destruct Hinv as [Hsrc Hle]. unfold size_t.in_range in Hrange. split.
  - rewrite next_unfold.
    destruct (reader.is_end r) eqn:Hend; [discriminate|].
    apply is_end_false_iff in Hend. rewrite Hsrc in Hend.
    unfold size_t.add. rewrite wrap_small
      by (unfold size_t.in_range; lia).
    intros Hseek. apply seek_done_inv in Hseek as [Hlt ->].
    rewrite Hsrc in *. split; [exact Hlt | reflexivity].
  - intros [Hlt ->]. rewrite <- Hsrc. apply next_before_last.
    + rewrite Hsrc. exact Hrange.
    + rewrite Hsrc. exact Hlt.
Qed.

Lemma next_returns_iff_successor_exists_witness :
  reader.run (P := LP64) [reader.Seek 1] (reader.ctor "abc"%string)
  = Done (reader.mk "abc"%string 1) /\
  (reader.next (P := LP64) (reader.mk "abc"%string 1)
   = Done (reader.mk "abc"%string 2)
   <-> reader.cursor (reader.mk "abc"%string 1) + 1 < std_size "abc"%string /\
       reader.mk "abc"%string 2
       = reader.mk "abc"%string
           (reader.cursor (reader.mk "abc"%string 1) + 1)).
Proof.
  split; [reflexivity|].
  apply (@next_returns_iff_successor_exists LP64 string string_source
           "abc"%string [reader.Seek 1]).
  - reflexivity.
  - reflexivity.
Defined.

(* ------------------------------------------------------------------ *)
(** * Further properties of the result model *)

(** X6: the accessors of a result agree with its constructors and with its
    predicates.  [success()] returns [s] exactly for the result
    constructed from [s], [failure()] returns [f] exactly for the result
    constructed from [f], and each accessor throws exactly when the
    predicate of its alternative is false. *)
Theorem result_accessors_agree :
  forall (T : Type) (r : result.t T),
    (forall s : success.t T,
        result.success r = Some s <-> r = result.of_success s) /\
    (forall f : failure.t,
        result.failure r = Some f <-> r = result.of_failure f) /\
    (result.success r = None <-> result.is_success r = false) /\
    (result.failure r = None <-> result.is_failure r = false).
Proof.
  intros T [[s0|f0]];
    unfold result.success, result.failure, result.is_success,
      result.is_failure, result.of_success, result.of_failure;
    cbn [result.m_Data];
    repeat split; intros; congruence.
Qed.

(* ------------------------------------------------------------------ *)
(** * Further properties of the combinator identity *)

Section IdentityCollisions.
Context {P : Platform}.

(** Adding [d] to a [std::size_t] gives it back exactly when [d] is a
    multiple of the modulus. *)
Lemma wrap_add_fixed (c d : N) :
  size_t.in_range c ->
  (size_t.wrap (c + d) = c <-> size_t.wrap d = 0).
Proof.
  intros Hc. unfold size_t.in_range in Hc.
  pose proof modulus_nonzero as Hm.
  pose proof (wrap_in_range d) as He. unfold size_t.in_range in He.
  unfold size_t.wrap in *.
  rewrite <- N.Div0.add_mod_idemp_r.
  set (e := d mod size_t.modulus) in *.
  destruct (N.lt_ge_cases (c + e) size_t.modulus) as [Hlt | Hge].
  - rewrite N.mod_small by exact Hlt. lia.
  - assert (Hmod : c + e - size_t.modulus = (c + e) mod size_t.modulus).
    { apply (N.mod_unique _ _ 1); lia. }
    rewrite <- Hmod. lia.
Qed.

End IdentityCollisions.

(** X7: the identity a combinator gets is the number of combinators
    default-constructed in the process before it, modulo
    [2 ^ size_t_bits]. *)
Theorem nth_identity :
  forall (P : Platform) (n : N),
    detail.combinator_base.parser_id
      (fst (detail.combinator_base.ctor
              (detail.combinator_base.construct_many n
                 detail.combinator_base.s_ID_Counter_init)))
    = n mod 2 ^ size_t_bits.
Proof.
  intros P n. rewrite ctor_id.
  rewrite construct_many_counter by apply modulus_pos.
  reflexivity.
Qed.

(** X8: two default-constructed combinators share an identity if and only
    if the number of default constructions from the earlier to the later
    (the later one included) is a multiple of [2 ^ size_t_bits]. *)
Theorem identities_collide_iff :
  forall (P : Platform) (counter : size_t.t) (between : N),
    size_t.in_range counter ->
    let ab := fst (detail.combinator_base.construct_pair between counter) in
    detail.combinator_base.parser_id (fst ab)
    = detail.combinator_base.parser_id (snd ab)
    <-> (between + 1) mod 2 ^ size_t_bits = 0.
Proof.
  intros P counter between Hrange.
  destruct (construct_pair_ids between Hrange) as [Ha Hb].
  cbv zeta in *. rewrite Ha, Hb.
  rewrite <- N.add_assoc, (N.add_comm 1 between).
  split.
  - intros Heq. apply (wrap_add_fixed (between + 1) Hrange).
    symmetry. exact Heq.
  - intros Hmul. symmetry. apply (wrap_add_fixed (between + 1) Hrange).
    exact Hmul.
Qed.

Lemma identities_collide_iff_witness :
  let ab :=
    fst (detail.combinator_base.construct_pair (P := LP64) 2 7) in
  detail.combinator_base.parser_id (fst ab) = 7 /\
  detail.combinator_base.parser_id (snd ab) = 10 /\
  (detail.combinator_base.parser_id (fst ab)
   = detail.combinator_base.parser_id (snd ab)
   <-> (2 + 1) mod 2 ^ size_t_bits (Platform := LP64) = 0).
Proof.
  split; [reflexivity|]. split; [reflexivity|].
  apply (@identities_collide_iff LP64 7 2). reflexivity.
Defined.


(* ------------------------------------------------------------------ *)
(** * Reading a list through the reader *)

(** X10: a walk by [next] reads the elements in order.  Over a list of
    length [L], for every [k < L], [k] calls of [next] on a fresh reader
    return and [current()] then reads the element of index [k]; every
    element, the last included, is read this way. *)
Theorem next_walk_reads_in_order :
  forall (P : Platform) (A : Type) (l : list A) (k : nat),
    size_t.in_range (std_size l) ->
    (k < List.length l)%nat ->
    exists (r : reader.t (list A)) (x : A),
      reader.run (repeat reader.Next k) (reader.ctor l) = Done r /\
      reader.cursor r = N.of_nat k /\
      reader.current r = Some x /\
      nth_error l k = Some x.
Proof.
  intros P A l k Hrange Hlt.
  destruct (nth_error l k) as [x|] eqn:Hnth.
  - exists (reader.mk l (N.of_nat k)), x.
    split; [|split; [reflexivity | split; [|reflexivity]]].
    + rewrite run_next_forward.
      * reflexivity.
      * exact Hrange.
      * right. simpl. lia.
    + unfold reader.current. simpl. rewrite Nnat.Nat2N.id. exact Hnth.
  - apply nth_error_None in Hnth. lia.
Qed.

Lemma next_walk_reads_in_order_witness :
  exists (r : reader.t (list N)) (x : N),
    reader.run (P := LP64) (repeat reader.Next 3)
               (reader.ctor [10; 20; 30; 40]) = Done r /\
    reader.cursor r = N.of_nat 3 /\
    reader.current r = Some x /\
    nth_error [10; 20; 30; 40] 3 = Some x.
Proof.
  apply (@next_walk_reads_in_order LP64 N [10; 20; 30; 40] 3).
  - reflexivity.
  - simpl. lia.
Defined.
